(** * Binomial short-rate lattice and zero-coupon bond pricing

    A shallow embedding of [binomial_tree.py]: the closed-form node rate
    [get_rate_at_node], the lattice builders [build_rates_tree] and
    [build_prices_tree], and [get_spot_rate].

    Numbers.  The program computes on IEEE-754 doubles.  Here a finite
    double is an exact real: rounding, overflow and underflow are not
    modelled, and the two signed zeros are one.  The special values the
    program can produce without overflow are kept: NaN (the fill value of
    both arrays, and the result of invalid operations) and the two
    infinities (division of a non-zero value by zero on NumPy scalars).

    Errors.  Python exceptions are values of [exn]; NumPy scalar
    arithmetic only warns and never raises.

    Arrays.  A NumPy two-dimensional array is a list of rows; an index
    outside the allocation raises [IndexError].

    Integers.  The [time] and [state] arguments of [get_rate_at_node] are
    Python ints, here [Z].  Horizons and loop indices are naturals: a
    negative [Time] is outside the model.  [tqdm] iterates over its
    argument unchanged and is left out. *)

From Stdlib Require Import Reals Lra Lia ZArith.
From stdpp Require Import base option list.

(** ** Python exceptions and results *)

Inductive exn : Set :=
  | ValueError
  | ZeroDivisionError
  | IndexError.

Inductive res (A : Type) : Type :=
  | Ok (a : A)
  | Raise (e : exn).
Arguments Ok {A} a.
Arguments Raise {A} e.

Definition res_bind {A B} (m : res A) (k : A → res B) : res B :=
  match m with
  | Ok a => k a
  | Raise e => Raise e
  end.

(** ** Doubles *)

Module Float.

Local Open Scope R_scope.

Inductive float : Type :=
  | Num (x : R)
  | PInf
  | NInf
  | NaN.

(** [by_sign x p z n] selects on the sign of [x]. *)
Definition by_sign {A} (x : R) (p z n : A) : A :=
  if Rlt_dec 0 x then p else if Rlt_dec x 0 then n else z.

Definition fopp (a : float) : float :=
  match a with
  | Num x => Num (- x)
  | PInf => NInf
  | NInf => PInf
  | NaN => NaN
  end.

Definition fadd (a b : float) : float :=
  match a, b with
  | NaN, _ | _, NaN => NaN
  | Num x, Num y => Num (x + y)
  | PInf, NInf | NInf, PInf => NaN
  | PInf, _ | _, PInf => PInf
  | NInf, _ | _, NInf => NInf
  end.

Definition fsub (a b : float) : float := fadd a (fopp b).

Definition fmul (a b : float) : float :=
  match a, b with
  | NaN, _ | _, NaN => NaN
  | Num x, Num y => Num (x * y)
  | Num x, PInf | PInf, Num x => by_sign x PInf NaN NInf
  | Num x, NInf | NInf, Num x => by_sign x NInf NaN PInf
  | PInf, PInf | NInf, NInf => PInf
  | PInf, NInf | NInf, PInf => NInf
  end.

(** Division on NumPy scalars: a zero divisor gives an infinity of the
    sign of the dividend (the divisor being the zero of positive sign),
    or NaN for [0/0]. *)
Definition fdiv (a b : float) : float :=
  match a, b with
  | NaN, _ | _, NaN => NaN
  | Num x, Num y =>
      if Req_dec_T y 0 then by_sign x PInf NaN NInf else Num (x / y)
  | Num _, (PInf | NInf) => Num 0
  | PInf, Num y => if Rlt_dec y 0 then NInf else PInf
  | NInf, Num y => if Rlt_dec y 0 then PInf else NInf
  | (PInf | NInf), (PInf | NInf) => NaN
  end.

(** [is_integer y] and [is_odd_integer y] for a real exponent. *)
Definition is_integer (y : R) : bool :=
  if Req_dec_T y (IZR (Int_part y)) then true else false.

Definition is_odd_integer (y : R) : bool :=
  is_integer y && Z.odd (Int_part y).

(** [x ** y] on a NumPy scalar [x] with a finite exponent [y], after the
    C library's [pow]. *)
Definition fpow (a : float) (y : R) : float :=
  if Req_dec_T y 0 then Num 1 else
  match a with
  | NaN => NaN
  | PInf => if Rlt_dec 0 y then PInf else Num 0
  | NInf =>
      if Rlt_dec 0 y
      then (if is_odd_integer y then NInf else PInf)
      else Num 0
  | Num x =>
      if Rlt_dec 0 x then Num (Rpower x y)
      else if Req_dec_T x 0 then (if Rlt_dec 0 y then Num 0 else PInf)
      else if is_integer y then Num (powerRZ x (Int_part y))
      else NaN
  end.

Definition is_nan (a : float) : bool :=
  match a with NaN => true | _ => false end.

End Float.
Export Float.

(** ** Arithmetic on Python values *)

(** [x ** n] for a Python float [x] and a Python int [n]:
    a zero base with a negative exponent raises [ZeroDivisionError]. *)
Definition py_pow (x : R) (n : Z) : res R :=
  if (0 <=? n)%Z then Ok (x ^ Z.to_nat n)%R
  else if Req_dec_T x 0 then Raise ZeroDivisionError
  else Ok (/ (x ^ Z.to_nat (- n)))%R.

(** [1 / n] for Python ints: true division, raising on zero. *)
Definition py_int_truediv (a : Z) (n : Z) : res R :=
  if (n =? 0)%Z then Raise ZeroDivisionError
  else Ok (IZR a / IZR n)%R.

(** ** [get_rate_at_node] *)

Definition get_rate_at_node (initial_rate up_move down_move : R)
    (time state : Z) : res R :=
  if (time <? state)%Z then Raise ValueError
  else
    res_bind (py_pow up_move state) (λ up,
    res_bind (py_pow down_move (time - state)) (λ down,
    Ok (up * down * initial_rate)%R)).

(** ** Observable steps of a run

    The builders are run in a monad that threads the list of steps taken
    so far (a ghost trace: which cells were computed, loaded and stored)
    and stops at the first exception. *)

Inductive array_id : Set := Rates | Prices.

Inductive event : Set :=
  | Computed (time state : nat)
  | Load (a : array_id) (i j : nat)
  | Store (a : array_id) (i j : nat)
  | StoreRow (a : array_id) (i : nat).

Definition trace := list event.

Definition Py (A : Type) : Type := trace → res (A * trace).

Definition ret {A} (a : A) : Py A := λ tr, Ok (a, tr).

Definition bind {A B} (m : Py A) (k : A → Py B) : Py B :=
  λ tr, match m tr with
        | Ok (a, tr') => k a tr'
        | Raise e => Raise e
        end.

Definition lift {A} (ev : list event) (m : res A) : Py A :=
  λ tr, match m with
        | Ok a => Ok (a, tr ++ ev)
        | Raise e => Raise e
        end.

Notation "'do' x <- m ; k" := (bind m (λ x, k))
  (at level 10, x name, m at level 100, k at level 200).

(** The value and the trace of a complete run. *)
Definition value {A} (m : Py A) : res A :=
  match m [] with
  | Ok (a, _) => Ok a
  | Raise e => Raise e
  end.

Definition steps {A} (m : Py A) : trace :=
  match m [] with
  | Ok (_, tr) => tr
  | Raise _ => []
  end.

(** [for x in xs: s = body x s] *)
Fixpoint for_each {St} (xs : list nat) (body : nat → St → Py St) (s : St)
    : Py St :=
  match xs with
  | [] => ret s
  | x :: xs' => do s' <- body x s; for_each xs' body s'
  end.

(** [range(n)] and [range(start, -1, -1)]. *)
Definition range (n : nat) : list nat := seq 0 n.

Definition range_rev (start : Z) : list nat :=
  rev (seq 0 (Z.to_nat (start + 1))).

(** ** Two-dimensional arrays *)

Abbreviation array := (list (list float)).

(** [np.full((n, m), v)] *)
Definition np_full (n m : nat) (v : float) : array :=
  replicate n (replicate m v).

Definition cell (a : array) (i j : nat) : option float :=
  row ← a !! i; row !! j.

(** [a[i, j]] *)
Definition arr_get (id : array_id) (a : array) (i j : nat) : Py float :=
  lift [Load id i j]
    match cell a i j with
    | Some v => Ok v
    | None => Raise IndexError
    end.

(** [a[i, j] = v] *)
Definition arr_set (id : array_id) (a : array) (i j : nat) (v : float)
    : Py array :=
  lift [Store id i j]
    match cell a i j with
    | Some _ => Ok (alter (λ row, <[j := v]> row) i a)
    | None => Raise IndexError
    end.

(** [a[i, :] = v] *)
Definition arr_set_row (id : array_id) (a : array) (i : nat) (v : float)
    : Py array :=
  lift [StoreRow id i]
    match a !! i with
    | Some _ => Ok (alter (λ row, replicate (length row) v) i a)
    | None => Raise IndexError
    end.

(** ** [build_rates_tree] *)

Definition rate_call (initial_rate up_move down_move : R)
    (time state : nat) : Py R :=
  lift [Computed time state]
    (get_rate_at_node initial_rate up_move down_move
       (Z.of_nat time) (Z.of_nat state)).

Definition build_rates_tree (initial_rate up_move down_move : R)
    (Time : nat) : Py array :=
  let Time := Time + 1 in
  let tree := np_full Time Time NaN in
  do tree <- arr_set Rates tree 0 0 (Num initial_rate);
  for_each (range Time) (λ time tree,
    for_each (range (time + 1)) (λ state tree,
      do r <- rate_call initial_rate up_move down_move time state;
      arr_set Rates tree time state (Num r)) tree) tree.

(** ** [build_prices_tree] *)

Definition build_prices_tree (initial_rate up_move down_move : R)
    (Time : nat) : Py array :=
  let price_tree := np_full (Time + 1) (Time + 1) NaN in
  do price_tree <- arr_set_row Prices price_tree Time (Num 100);
  do rates_tree <- build_rates_tree initial_rate up_move down_move Time;
  for_each (range_rev (Z.of_nat Time - 1)) (λ time price_tree,
    for_each (range_rev (Z.of_nat time)) (λ step price_tree,
      do rate <- arr_get Rates rates_tree time step;
      let discount_factor := fdiv (Num 1) (fadd (Num 1) rate) in
      do prior_up_price <- arr_get Prices price_tree (time + 1) (step + 1);
      do prior_down_price <- arr_get Prices price_tree (time + 1) step;
      let price :=
        fmul (fadd (fmul (Num 0.5) prior_up_price)
                   (fmul (Num 0.5) prior_down_price))
             discount_factor in
      arr_set Prices price_tree time step price) price_tree) price_tree.

(** ** [get_spot_rate] *)

Definition get_spot_rate (short_rate up_move down_move : R)
    (periods : nat) : Py float :=
  do tree <- build_prices_tree short_rate up_move down_move periods;
  do bond_price <- arr_get Prices tree 0 0;
  do exponent <- lift [] (py_int_truediv 1 (Z.of_nat periods));
  ret (fsub (fpow (fdiv (Num 100) bond_price) exponent) (Num 1)).

(** * Contents and steps of the lattices

    The vocabulary of the statements below: arrays as tabulated functions,
    the cell values and the steps of a run in closed form. *)

(** The [n] by [n] array whose cell [(i, j)] holds [f i j]. *)
Definition grid (n : nat) (f : nat → nat → float) : array :=
  (λ i, f i <$> seq 0 n) <$> seq 0 n.

(** [f] with cell [(i, j)] overwritten by [v], and with row [i] overwritten. *)
Definition upd (f : nat → nat → float) (i j : nat) (v : float)
    : nat → nat → float :=
  λ i' j', if decide (i' = i ∧ j' = j) then v else f i' j'.

Definition upd_row (f : nat → nat → float) (i : nat) (v : float)
    : nat → nat → float :=
  λ i' j', if decide (i' = i) then v else f i' j'.

Section Contents.

Variables r0 u d : R.

(** The closed form [u^j * d^(i-j) * r0]. *)
Definition rate (i j : nat) : R := (u ^ j * d ^ (i - j) * r0)%R.

(** Contents of the finished rate lattice. *)
Definition rates_final (i j : nat) : float :=
  if decide (j ≤ i) then Num (rate i j) else NaN.

(** Steps taken for one cell, for the first [k] states of row [i], and for
    the first [t] rows. *)
Definition rate_cell_steps (i j : nat) : trace :=
  [Computed i j; Store Rates i j].

Definition rate_row_steps (i k : nat) : trace :=
  seq 0 k ≫= rate_cell_steps i.

Definition rate_rows_steps (t : nat) : trace :=
  seq 0 t ≫= (λ i, rate_row_steps i (i + 1)).

(** Contents while the loops run: rows below [t] are done, and so are
    the first [k] states of row [t]; the root was stored beforehand. *)
Definition rates_stage (t k : nat) (i j : nat) : float :=
  if decide (((i < t ∨ (i = t ∧ j < k)) ∧ j ≤ i) ∨ (i = 0 ∧ j = 0))
  then Num (rate i j) else NaN.

(** One backward-induction step, as the loop body computes it. *)
Definition price_step (prior_up_price prior_down_price rate : float) : float :=
  fmul (fadd (fmul (Num 0.5) prior_up_price)
             (fmul (Num 0.5) prior_down_price))
       (fdiv (Num 1) (fadd (Num 1) rate)).

(** The price at [(i, j)] when [k] periods remain to the horizon. *)
Fixpoint price_from (k i j : nat) : float :=
  match k with
  | 0 => Num 100
  | S k' =>
      price_step (price_from k' (i + 1) (j + 1)) (price_from k' (i + 1) j)
                 (Num (rate i j))
  end.

Definition price (T i j : nat) : float := price_from (T - i) i j.

(** Contents of the finished price lattice. *)
Definition prices_final (T i j : nat) : float :=
  if decide (j ≤ i) then price T i j else NaN.

(** Contents while the loops run: the terminal row is set, rows above
    [t] are done, and so are the states from [k] up of row [t]. *)
Definition prices_stage (T t k : nat) (i j : nat) : float :=
  if decide (i = T ∨ ((t < i ∨ (i = t ∧ k ≤ j)) ∧ j ≤ i))
  then price T i j else NaN.

(** Steps taken for one cell, for the states from [k] up of row [t]
    (highest first), and for the rows from [t] up (latest first). *)
Definition price_cell_steps (t s : nat) : trace :=
  [Load Rates t s; Load Prices (t + 1) (s + 1); Load Prices (t + 1) s;
   Store Prices t s].

Definition price_row_steps (t k : nat) : trace :=
  rev (seq k (t + 1 - k)) ≫= price_cell_steps t.

Definition price_rows_steps (T t : nat) : trace :=
  rev (seq t (T - t)) ≫= (λ i, price_row_steps i 0).

End Contents.

(** The cells a run computed through [get_rate_at_node], in order. *)
Definition computed (tr : trace) : list (nat * nat) :=
  tr ≫= (λ e, match e with Computed i j => [(i, j)] | _ => [] end).

(** The number of cells of an array that hold a number, not NaN. *)
Definition populated (a : array) : nat :=
  sum_list ((λ row, length (filter (λ v, is_nan v = false) row)) <$> a).

(** The valid cells of a lattice of horizon [T], row by row. *)
Definition lattice_cells (T : nat) : list (nat * nat) :=
  seq 0 (T + 1) ≫= (λ i, (λ j, (i, j)) <$> seq 0 (i + 1)).

(** A step touches a valid cell of a lattice of horizon [T]. *)
Definition well_placed (T : nat) (e : event) : Prop :=
  match e with
  | Computed i j | Load _ i j | Store _ i j => j ≤ i ∧ i ≤ T
  | StoreRow _ i => i ≤ T
  end.

(** An array of [n] rows of [n] cells. *)
Definition square (n : nat) (a : array) : Prop :=
  length a = n ∧ Forall (λ row, length row = n) a.

(** The cells a run stored into the array [a], in order. *)
Definition stored (a : array_id) (tr : trace) : list (nat * nat) :=
  tr ≫= (λ e, match e, a with
              | Store Rates i j, Rates | Store Prices i j, Prices => [(i, j)]
              | _, _ => []
              end).

(** The non-terminal valid cells of a lattice of horizon [T], latest row
    first and, within a row, highest state first. *)
Definition backward_cells (T : nat) : list (nat * nat) :=
  rev (seq 0 T) ≫= (λ i, (λ j, (i, j)) <$> rev (seq 0 (i + 1))).

(** * Verification *)

(** ** Arrays as tabulated functions *)

Lemma grid_ext n f g :
  (∀ i j, i < n → j < n → f i j = g i j) → grid n f = grid n g.
Proof.
  intros Hfg. unfold grid. apply list_fmap_ext. intros k i Hi.
  apply lookup_seq in Hi as [-> Hk]. apply list_fmap_ext. intros k' j Hj.
  apply lookup_seq in Hj as [-> Hk']. apply Hfg; lia.
Qed.

Lemma grid_row n f i : i < n → grid n f !! i = Some (f i <$> seq 0 n).
Proof.
  intros Hi. unfold grid. rewrite list_lookup_fmap, lookup_seq_lt by done.
  done.
Qed.

Lemma grid_row_None n f i : n ≤ i → grid n f !! i = None.
Proof.
  intros Hi. unfold grid. rewrite list_lookup_fmap, lookup_seq_ge by done.
  done.
Qed.

Lemma cell_grid n f i j :
  i < n → j < n → cell (grid n f) i j = Some (f i j).
Proof.
  intros Hi Hj. unfold cell. rewrite grid_row by done. simpl.
  rewrite list_lookup_fmap, lookup_seq_lt by done. done.
Qed.

Lemma cell_grid_None n f i j :
  n ≤ i ∨ n ≤ j → cell (grid n f) i j = None.
Proof.
  intros Hij. unfold cell. destruct (decide (i < n)) as [Hi|Hi].
  - rewrite grid_row by done. simpl.
    rewrite list_lookup_fmap, lookup_seq_ge by lia. done.
  - rewrite grid_row_None by lia. done.
Qed.

Lemma np_full_grid n v : np_full n n v = grid n (λ _ _, v).
Proof.
  unfold np_full, grid. apply list_eq. intros i.
  rewrite list_lookup_fmap. destruct (decide (i < n)) as [Hi|Hi].
  - rewrite lookup_replicate_2, lookup_seq_lt by done. simpl. f_equal.
    apply list_eq. intros j. rewrite list_lookup_fmap.
    destruct (decide (j < n)) as [Hj|Hj].
    + rewrite lookup_replicate_2, lookup_seq_lt by done. done.
    + rewrite lookup_seq_ge by lia. simpl.
      apply lookup_replicate_None. lia.
  - rewrite lookup_seq_ge by lia. simpl. apply lookup_replicate_None. lia.
Qed.

Lemma alter_insert_grid n f i j v :
  i < n → j < n →
  alter (λ row, <[j := v]> row) i (grid n f) = grid n (upd f i j v).
Proof.
  intros Hi Hj. apply list_eq. intros i'.
  rewrite list_lookup_alter. destruct (decide (i' < n)) as [Hi'|Hi'].
  - rewrite (grid_row n (upd f i j v)) by done.
    case_decide as Hii.
    + subst i'. rewrite grid_row by done. simpl. f_equal.
      apply list_eq. intros j'. rewrite list_lookup_insert.
      rewrite length_fmap, length_seq, !list_lookup_fmap.
      destruct (decide (j' < n)) as [Hj'|Hj'].
      * rewrite lookup_seq_lt by done. simpl. unfold upd.
        repeat case_decide; try done; lia.
      * rewrite lookup_seq_ge by lia. simpl. case_decide; [lia|done].
    + rewrite grid_row by done. f_equal. apply list_fmap_ext.
      intros k j' Hk. unfold upd. case_decide; [lia|done].
  - case_decide; [lia|]. rewrite !grid_row_None by lia. done.
Qed.

Lemma alter_replicate_grid n f i v :
  i < n →
  alter (λ row, replicate (length row) v) i (grid n f)
  = grid n (upd_row f i v).
Proof.
  intros Hi. apply list_eq. intros i'.
  rewrite list_lookup_alter. destruct (decide (i' < n)) as [Hi'|Hi'].
  - rewrite (grid_row n (upd_row f i v)) by done.
    case_decide as Hii.
    + subst i'. rewrite grid_row by done. simpl. f_equal.
      rewrite length_fmap, length_seq. apply list_eq. intros j'.
      rewrite list_lookup_fmap. destruct (decide (j' < n)) as [Hj'|Hj'].
      * rewrite lookup_replicate_2, lookup_seq_lt by done. simpl.
        unfold upd_row. case_decide; done.
      * rewrite lookup_seq_ge by lia. simpl.
        apply lookup_replicate_None. lia.
    + rewrite grid_row by done. f_equal. apply list_fmap_ext.
      intros k j' Hk. unfold upd_row. case_decide; [lia|done].
  - case_decide; [lia|]. rewrite !grid_row_None by lia. done.
Qed.

(** ** The array operations on a tabulated array *)

Lemma arr_get_grid id n f i j tr :
  i < n → j < n →
  arr_get id (grid n f) i j tr = Ok (f i j, tr ++ [Load id i j]).
Proof.
  intros Hi Hj. unfold arr_get, lift. rewrite cell_grid by done. done.
Qed.

Lemma arr_set_grid id n f i j v tr :
  i < n → j < n →
  arr_set id (grid n f) i j v tr
  = Ok (grid n (upd f i j v), tr ++ [Store id i j]).
Proof.
  intros Hi Hj. unfold arr_set, lift. rewrite cell_grid by done.
  rewrite alter_insert_grid by done. done.
Qed.

Lemma arr_set_row_grid id n f i v tr :
  i < n →
  arr_set_row id (grid n f) i v tr
  = Ok (grid n (upd_row f i v), tr ++ [StoreRow id i]).
Proof.
  intros Hi. unfold arr_set_row, lift. rewrite grid_row by done.
  rewrite alter_replicate_grid by done. done.
Qed.

(** An index outside the allocation raises. *)
Lemma arr_get_out_of_range id n f i j tr :
  n ≤ i ∨ n ≤ j → arr_get id (grid n f) i j tr = Raise IndexError.
Proof.
  intros Hij. unfold arr_get, lift. rewrite cell_grid_None by done. done.
Qed.

(** ** Loops *)

Lemma for_each_app {St} (xs ys : list nat) (body : nat → St → Py St) s tr :
  for_each (xs ++ ys) body s tr
  = (do s' <- for_each xs body s; for_each ys body s') tr.
Proof.
  revert s tr. induction xs as [|x xs IH]; intros s tr; simpl.
  - done.
  - unfold bind. destruct (body x s tr) as [[s' tr']|e]; [|done].
    rewrite IH. done.
Qed.

(** Invariant rule for [for k in range(n)]. *)
Lemma for_each_range {St} (n : nat) (body : nat → St → Py St)
    (Inv : nat → St → trace → Prop) s tr :
  Inv 0 s tr →
  (∀ k s tr, k < n → Inv k s tr →
     ∃ s' tr', body k s tr = Ok (s', tr') ∧ Inv (S k) s' tr') →
  ∃ s' tr', for_each (range n) body s tr = Ok (s', tr') ∧ Inv n s' tr'.
Proof.
  unfold range. induction n as [|n IH]; intros H0 Hstep.
  - simpl. eauto.
  - destruct IH as (s1 & tr1 & Hrun & Hinv); [done| |].
    { intros k s0 tr0 Hk. apply Hstep. lia. }
    destruct (Hstep n s1 tr1) as (s2 & tr2 & Hbody & Hinv2); [lia|done|].
    exists s2, tr2. split; [|done].
    rewrite seq_S, for_each_app. unfold bind at 1. rewrite Hrun. simpl.
    unfold bind. rewrite Hbody. done.
Qed.

(** Invariant rule for [for k in range(n - 1, -1, -1)]. *)
Lemma for_each_range_rev {St} (n : nat) (body : nat → St → Py St)
    (Inv : nat → St → trace → Prop) s tr :
  Inv n s tr →
  (∀ k s tr, k < n → Inv (S k) s tr →
     ∃ s' tr', body k s tr = Ok (s', tr') ∧ Inv k s' tr') →
  ∃ s' tr',
    for_each (range_rev (Z.of_nat n - 1)) body s tr = Ok (s', tr')
    ∧ Inv 0 s' tr'.
Proof.
  unfold range_rev. replace (Z.to_nat (Z.of_nat n - 1 + 1)) with n by lia.
  revert s tr. induction n as [|n IH]; intros s tr Hn Hstep.
  - simpl. eauto.
  - destruct (Hstep n s tr) as (s1 & tr1 & Hbody & Hinv1); [lia|done|].
    destruct (IH s1 tr1) as (s2 & tr2 & Hrun & Hinv2); [done| |].
    { intros k s0 tr0 Hk. apply Hstep. lia. }
    exists s2, tr2. split; [|done].
    rewrite seq_S, rev_app_distr. simpl. unfold bind. rewrite Hbody. done.
Qed.

(** Case analysis on the [decide]s of two array contents. *)
Ltac stage_cases :=
  repeat case_decide; destruct_and?; subst; try done; try lia.

(** ** The rate lattice *)

Section Lattice.

Variables r0 u d : R.

Local Abbreviation rate := (rate r0 u d).
Local Abbreviation rates_final := (rates_final r0 u d).
Local Abbreviation rates_stage := (rates_stage r0 u d).
Local Abbreviation price_from := (price_from r0 u d).
Local Abbreviation price := (price r0 u d).
Local Abbreviation prices_final := (prices_final r0 u d).
Local Abbreviation prices_stage := (prices_stage r0 u d).

Lemma rate_root : rate 0 0 = r0.
Proof. unfold rate. simpl. lra. Qed.

Lemma get_rate_at_node_valid (i j : nat) :
  j ≤ i →
  get_rate_at_node r0 u d (Z.of_nat i) (Z.of_nat j) = Ok (rate i j).
Proof.
  intros Hji. unfold get_rate_at_node.
  destruct (Z.ltb_spec (Z.of_nat i) (Z.of_nat j)) as [Hlt|_]; [lia|].
  unfold py_pow.
  destruct (Z.leb_spec 0 (Z.of_nat j)) as [_|Hneg]; [|lia].
  destruct (Z.leb_spec 0 (Z.of_nat i - Z.of_nat j)) as [_|Hneg]; [|lia].
  simpl. unfold rate. rewrite Nat2Z.id.
  replace (Z.to_nat (Z.of_nat i - Z.of_nat j)) with (i - j) by lia. done.
Qed.

Lemma rate_row_steps_S i k :
  rate_row_steps i (S k) = rate_row_steps i k ++ rate_cell_steps i k.
Proof.
  unfold rate_row_steps. rewrite seq_S, bind_app. done.
Qed.

Lemma rate_rows_steps_S t :
  rate_rows_steps (S t) = rate_rows_steps t ++ rate_row_steps t (t + 1).
Proof.
  unfold rate_rows_steps. rewrite seq_S, bind_app. simpl.
  by rewrite app_nil_r.
Qed.

Lemma rates_body n f t k tr :
  t < n → k ≤ t →
  (do r <- rate_call r0 u d t k;
   arr_set Rates (grid n f) t k (Num r)) tr
  = Ok (grid n (upd f t k (Num (rate t k))), tr ++ rate_cell_steps t k).
Proof.
  intros Ht Hk. unfold bind, rate_call, lift.
  rewrite get_rate_at_node_valid by done.
  rewrite arr_set_grid by lia. by rewrite <- app_assoc.
Qed.

Lemma rates_inner_loop n t a tr :
  t < n → a = grid n (rates_stage t 0) →
  for_each (range (t + 1)) (λ state tree,
      do r <- rate_call r0 u d t state;
      arr_set Rates tree t state (Num r)) a tr
  = Ok (grid n (rates_stage (S t) 0), tr ++ rate_row_steps t (t + 1)).
Proof.
  intros Ht ->.
  destruct (for_each_range (t + 1)
    (λ state tree,
      do r <- rate_call r0 u d t state;
      arr_set Rates tree t state (Num r))
    (λ k a' tr', a' = grid n (rates_stage t k)
                 ∧ tr' = tr ++ rate_row_steps t k)
    (grid n (rates_stage t 0)) tr)
    as (a' & tr' & Hrun & -> & ->).
  - split; [done|]. unfold rate_row_steps. simpl. by rewrite app_nil_r.
  - intros k a0 tr0 Hk [-> ->]. eexists _, _. split.
    + apply rates_body; lia.
    + split.
      * apply grid_ext. intros i j Hi Hj. unfold upd, rates_stage.
        stage_cases.
      * rewrite rate_row_steps_S, <- !app_assoc. done.
  - rewrite Hrun. f_equal. f_equal. apply grid_ext. intros i j Hi Hj.
    unfold rates_stage. stage_cases.
Qed.

Lemma build_rates_tree_run (T : nat) (tr : trace) :
  build_rates_tree r0 u d T tr
  = Ok (grid (T + 1) rates_final,
        tr ++ Store Rates 0 0 :: rate_rows_steps (T + 1)).
Proof.
  unfold build_rates_tree. rewrite np_full_grid. unfold bind at 1.
  rewrite arr_set_grid by lia.
  destruct (for_each_range (T + 1)
    (λ time tree,
      for_each (range (time + 1)) (λ state tree,
        do r <- rate_call r0 u d time state;
        arr_set Rates tree time state (Num r)) tree)
    (λ t a' tr', a' = grid (T + 1) (rates_stage t 0)
                 ∧ tr' = (tr ++ [Store Rates 0 0]) ++ rate_rows_steps t)
    (grid (T + 1) (upd (λ _ _, NaN) 0 0 (Num r0)))
    (tr ++ [Store Rates 0 0]))
    as (a' & tr' & Hrun & -> & ->).
  - split; [|by rewrite app_nil_r].
    apply grid_ext. intros i j Hi Hj. unfold upd, rates_stage.
    stage_cases. by rewrite rate_root.
  - intros t a0 tr0 Ht [-> ->]. eexists _, _. split.
    + apply (rates_inner_loop (T + 1)); [lia|done].
    + split; [done|]. rewrite rate_rows_steps_S, <- !app_assoc. done.
  - rewrite Hrun. f_equal. f_equal.
    + apply grid_ext. intros i j Hi Hj. unfold rates_stage, rates_final.
      stage_cases.
    + rewrite <- app_assoc. done.
Qed.

(** ** The price lattice *)

Lemma price_terminal T j : price T T j = Num 100.
Proof. unfold price. by rewrite Nat.sub_diag. Qed.

Lemma price_backward T i j :
  i < T →
  price T i j
  = price_step (price T (i + 1) (j + 1)) (price T (i + 1) j) (Num (rate i j)).
Proof.
  intros Hi. unfold price.
  replace (T - i) with (S (T - (i + 1))) by lia. done.
Qed.

Lemma price_row_steps_step t k :
  k ≤ t →
  price_row_steps t k = price_row_steps t (S k) ++ price_cell_steps t k.
Proof.
  intros Hk. unfold price_row_steps.
  replace (t + 1 - k) with (S (t + 1 - S k)) by lia. simpl.
  by rewrite bind_app.
Qed.

Lemma price_rows_steps_step T t :
  t < T →
  price_rows_steps T t = price_rows_steps T (S t) ++ price_row_steps t 0.
Proof.
  intros Ht. unfold price_rows_steps.
  replace (T - t) with (S (T - S t)) by lia. simpl.
  rewrite bind_app. simpl. by rewrite app_nil_r.
Qed.

Lemma prices_body T t s f tr :
  t < T → s ≤ t →
  f (t + 1) (s + 1) = price T (t + 1) (s + 1) →
  f (t + 1) s = price T (t + 1) s →
  (do rate <- arr_get Rates (grid (T + 1) rates_final) t s;
   let discount_factor := fdiv (Num 1) (fadd (Num 1) rate) in
   do prior_up_price <- arr_get Prices (grid (T + 1) f) (t + 1) (s + 1);
   do prior_down_price <- arr_get Prices (grid (T + 1) f) (t + 1) s;
   let price :=
     fmul (fadd (fmul (Num 0.5) prior_up_price)
                (fmul (Num 0.5) prior_down_price))
          discount_factor in
   arr_set Prices (grid (T + 1) f) t s price) tr
  = Ok (grid (T + 1) (upd f t s (price T t s)), tr ++ price_cell_steps t s).
Proof.
  intros Ht Hs Hup Hdown. unfold bind.
  rewrite !arr_get_grid by lia. rewrite arr_set_grid by lia.
  rewrite Hup, Hdown, (price_backward T t s) by done.
  unfold rates_final. rewrite decide_True by done.
  unfold price_cell_steps. rewrite <- !app_assoc. done.
Qed.

Lemma prices_inner_loop T t tr :
  t < T →
  for_each (range_rev (Z.of_nat t)) (λ step price_tree,
      do rate <- arr_get Rates (grid (T + 1) rates_final) t step;
      let discount_factor := fdiv (Num 1) (fadd (Num 1) rate) in
      do prior_up_price <- arr_get Prices price_tree (t + 1) (step + 1);
      do prior_down_price <- arr_get Prices price_tree (t + 1) step;
      let price :=
        fmul (fadd (fmul (Num 0.5) prior_up_price)
                   (fmul (Num 0.5) prior_down_price))
             discount_factor in
      arr_set Prices price_tree t step price)
    (grid (T + 1) (prices_stage T t (t + 1))) tr
  = Ok (grid (T + 1) (prices_stage T t 0), tr ++ price_row_steps t 0).
Proof.
  intros Ht.
  replace (Z.of_nat t) with (Z.of_nat (t + 1) - 1)%Z by lia.
  destruct (for_each_range_rev (t + 1)
    (λ step price_tree,
      do rate <- arr_get Rates (grid (T + 1) rates_final) t step;
      let discount_factor := fdiv (Num 1) (fadd (Num 1) rate) in
      do prior_up_price <- arr_get Prices price_tree (t + 1) (step + 1);
      do prior_down_price <- arr_get Prices price_tree (t + 1) step;
      let price :=
        fmul (fadd (fmul (Num 0.5) prior_up_price)
                   (fmul (Num 0.5) prior_down_price))
             discount_factor in
      arr_set Prices price_tree t step price)
    (λ k a' tr', a' = grid (T + 1) (prices_stage T t k)
                 ∧ tr' = tr ++ price_row_steps t k)
    (grid (T + 1) (prices_stage T t (t + 1))) tr)
    as (a' & tr' & Hrun & -> & ->).
  - split; [done|]. unfold price_row_steps.
    replace (t + 1 - (t + 1)) with 0 by lia. simpl. by rewrite app_nil_r.
  - intros k a0 tr0 Hk [-> ->]. eexists _, _. split.
    + apply (prices_body T t k); [done|lia|..].
      * unfold prices_stage. rewrite decide_True; [done|lia].
      * unfold prices_stage. rewrite decide_True; [done|lia].
    + split.
      * apply grid_ext. intros i j Hi Hj. unfold upd, prices_stage.
        stage_cases.
      * rewrite (price_row_steps_step t k), <- !app_assoc by lia. done.
  - done.
Qed.

Lemma prices_outer_loop T tr :
  for_each (range_rev (Z.of_nat T - 1)) (λ time price_tree,
    for_each (range_rev (Z.of_nat time)) (λ step price_tree,
      do rate <- arr_get Rates (grid (T + 1) rates_final) time step;
      let discount_factor := fdiv (Num 1) (fadd (Num 1) rate) in
      do prior_up_price <- arr_get Prices price_tree (time + 1) (step + 1);
      do prior_down_price <- arr_get Prices price_tree (time + 1) step;
      let price :=
        fmul (fadd (fmul (Num 0.5) prior_up_price)
                   (fmul (Num 0.5) prior_down_price))
             discount_factor in
      arr_set Prices price_tree time step price) price_tree)
    (grid (T + 1) (upd_row (λ _ _, NaN) T (Num 100))) tr
  = Ok (grid (T + 1) (prices_final T), tr ++ price_rows_steps T 0).
Proof.
  destruct (for_each_range_rev T
    (λ time price_tree,
      for_each (range_rev (Z.of_nat time)) (λ step price_tree,
        do rate <- arr_get Rates (grid (T + 1) rates_final) time step;
        let discount_factor := fdiv (Num 1) (fadd (Num 1) rate) in
        do prior_up_price <- arr_get Prices price_tree (time + 1) (step + 1);
        do prior_down_price <- arr_get Prices price_tree (time + 1) step;
        let price :=
          fmul (fadd (fmul (Num 0.5) prior_up_price)
                     (fmul (Num 0.5) prior_down_price))
               discount_factor in
        arr_set Prices price_tree time step price) price_tree)
    (λ t a' tr', a' = grid (T + 1) (prices_stage T t 0)
                 ∧ tr' = tr ++ price_rows_steps T t)
    (grid (T + 1) (upd_row (λ _ _, NaN) T (Num 100))) tr)
    as (a' & tr' & Hrun & -> & ->).
  - split.
    + apply grid_ext. intros i j Hi Hj. unfold upd_row, prices_stage.
      stage_cases. by rewrite price_terminal.
    + unfold price_rows_steps. rewrite Nat.sub_diag. simpl.
      by rewrite app_nil_r.
  - intros t a0 tr0 Ht [-> ->]. eexists _, _. split.
    + replace (grid (T + 1) (prices_stage T (S t) 0))
        with (grid (T + 1) (prices_stage T t (t + 1))).
      * apply (prices_inner_loop T t); done.
      * apply grid_ext. intros i j Hi Hj. unfold prices_stage. stage_cases.
    + split; [done|].
      rewrite (price_rows_steps_step T t), <- !app_assoc by done. done.
  - rewrite Hrun. f_equal. f_equal.
    apply grid_ext. intros i j Hi Hj. unfold prices_stage, prices_final.
    stage_cases.
Qed.

Lemma build_prices_tree_run (T : nat) (tr : trace) :
  build_prices_tree r0 u d T tr
  = Ok (grid (T + 1) (prices_final T),
        tr ++ StoreRow Prices T :: Store Rates 0 0 :: rate_rows_steps (T + 1)
           ++ price_rows_steps T 0).
Proof.
  unfold build_prices_tree. rewrite np_full_grid. unfold bind at 1.
  rewrite arr_set_row_grid by lia. unfold bind at 1.
  rewrite build_rates_tree_run, prices_outer_loop.
  f_equal. f_equal. rewrite <- !app_assoc. done.
Qed.

End Lattice.

(** ** Complete runs *)

Lemma build_rates_tree_value r0 u d T :
  value (build_rates_tree r0 u d T) = Ok (grid (T + 1) (rates_final r0 u d)).
Proof. unfold value. by rewrite build_rates_tree_run. Qed.

Lemma build_rates_tree_steps r0 u d T :
  steps (build_rates_tree r0 u d T)
  = Store Rates 0 0 :: rate_rows_steps (T + 1).
Proof. unfold steps. by rewrite build_rates_tree_run. Qed.

Lemma build_prices_tree_value r0 u d T :
  value (build_prices_tree r0 u d T)
  = Ok (grid (T + 1) (prices_final r0 u d T)).
Proof. unfold value. by rewrite build_prices_tree_run. Qed.

Lemma build_prices_tree_steps r0 u d T :
  steps (build_prices_tree r0 u d T)
  = StoreRow Prices T :: Store Rates 0 0 :: rate_rows_steps (T + 1)
    ++ price_rows_steps T 0.
Proof. unfold steps. by rewrite build_prices_tree_run. Qed.

Lemma get_spot_rate_run r0 u d T tr :
  get_spot_rate r0 u d T tr
  = match py_int_truediv 1 (Z.of_nat T) with
    | Ok e =>
        Ok (fsub (fpow (fdiv (Num 100) (prices_final r0 u d T 0 0)) e)
                 (Num 1),
            (tr ++ StoreRow Prices T :: Store Rates 0 0
                :: rate_rows_steps (T + 1) ++ price_rows_steps T 0)
            ++ [Load Prices 0 0])
    | Raise e => Raise e
    end.
Proof.
  unfold get_spot_rate, bind. rewrite build_prices_tree_run.
  rewrite arr_get_grid by lia. unfold lift, ret.
  destruct (py_int_truediv 1 (Z.of_nat T)); [|done].
  by rewrite app_nil_r.
Qed.

(** ** Facts on doubles *)

Lemma by_sign_pos {A} (x : R) (p z n : A) : (0 < x)%R → by_sign x p z n = p.
Proof. intros Hx. unfold by_sign. destruct (Rlt_dec 0 x); [done|lra]. Qed.

Lemma by_sign_neg {A} (x : R) (p z n : A) : (x < 0)%R → by_sign x p z n = n.
Proof.
  intros Hx. unfold by_sign.
  destruct (Rlt_dec 0 x); [lra|]. destruct (Rlt_dec x 0); [done|lra].
Qed.

Lemma fmul_half_fadd (a b : float) :
  fmul (Num 0.5) (fadd a b) = fadd (fmul (Num 0.5) a) (fmul (Num 0.5) b).
Proof.
  assert (0 < 0.5)%R by lra.
  destruct a, b; simpl; rewrite ?by_sign_pos by done; simpl; try done.
  f_equal. lra.
Qed.

(** The step on finite prices and a rate other than [-1]. *)
Lemma price_step_Num (a b r : R) :
  (1 + r ≠ 0)%R →
  price_step (Num a) (Num b) (Num r)
  = Num ((0.5 * a + 0.5 * b) * (1 / (1 + r))).
Proof.
  intros Hr. unfold price_step. simpl.
  destruct (Req_dec_T (1 + r) 0); [done|]. done.
Qed.






(** * Properties of the node rate *)



(** C2.  For [0 <= j <= i], [get_rate_at_node] returns exactly
    [u^j * d^(i-j) * r0], and cell [(i, j)] of the lattice built by
    [build_rates_tree] with horizon [T >= i] holds that value.  (This
    holds for every [r0], positive or not.) *)
Theorem rate_closed_form (r0 u d : R) (T i j : nat) :
  j ≤ i →
  get_rate_at_node r0 u d (Z.of_nat i) (Z.of_nat j)
  = Ok (u ^ j * d ^ (i - j) * r0)%R
  ∧ (i ≤ T →
     ∃ tree, value (build_rates_tree r0 u d T) = Ok tree
             ∧ cell tree i j = Some (Num (u ^ j * d ^ (i - j) * r0))).
Proof.
  intros Hji. split.
  - by apply get_rate_at_node_valid.
  - intros HiT. eexists. split; [apply build_rates_tree_value|].
    rewrite cell_grid by lia. unfold rates_final.
    rewrite decide_True by done. done.
Qed.

Lemma rate_closed_form_witness :
  3 ≤ 4 ∧ 4 ≤ 5
  ∧ get_rate_at_node 0.06 1.25 0.9 (Z.of_nat 4) (Z.of_nat 3)
    = Ok (1.25 ^ 3 * 0.9 ^ (4 - 3) * 0.06)%R
  ∧ ∃ tree, value (build_rates_tree 0.06 1.25 0.9 5) = Ok tree
            ∧ cell tree 4 3 = Some (Num (1.25 ^ 3 * 0.9 ^ (4 - 3) * 0.06)).
Proof.
  assert (3 ≤ 4) as H34 by lia. assert (4 ≤ 5) as H45 by lia.
  destruct (rate_closed_form 0.06 1.25 0.9 5 4 3 H34) as [Hnode Htree].
  split; [done|]. split; [done|]. split; [done|]. by apply Htree.
Defined.




(** * Properties of the rate lattice *)

Lemma computed_rate_row i k :
  computed (rate_row_steps i k) = (λ j, (i, j)) <$> seq 0 k.
Proof.
  unfold rate_row_steps. induction k as [|k IH]; [done|].
  rewrite seq_S, bind_app, fmap_app. unfold computed in *.
  rewrite bind_app, IH. done.
Qed.

Lemma computed_rate_rows t :
  computed (rate_rows_steps t)
  = seq 0 t ≫= (λ i, (λ j, (i, j)) <$> seq 0 (i + 1)).
Proof.
  unfold rate_rows_steps. induction t as [|t IH]; [done|].
  rewrite seq_S, !bind_app. unfold computed in *.
  rewrite bind_app, IH. f_equal. simpl. rewrite !app_nil_r.
  apply computed_rate_row.
Qed.

Lemma lattice_cells_NoDup T : NoDup (lattice_cells T).
Proof.
  unfold lattice_cells. apply NoDup_bind.
  - intros i1 i2 [i j] _ _ H1 H2.
    apply list_elem_of_fmap in H1 as (j1 & [= -> ->] & _).
    apply list_elem_of_fmap in H2 as (j2 & [= -> ->] & _). done.
  - intros i _. apply NoDup_fmap; [|apply NoDup_seq].
    intros j1 j2 [= ->]. done.
  - apply NoDup_seq.
Qed.

Lemma triangle_length {A} (f : nat → list A) (n : nat) :
  (∀ i, length (f i) = i + 1) →
  2 * length (seq 0 n ≫= f) = n * (n + 1).
Proof.
  intros Hf. induction n as [|n IH]; [done|].
  rewrite seq_S, bind_app, length_app, bind_singleton. simpl.
  rewrite Hf. lia.
Qed.

Lemma triangle_sum (n : nat) :
  2 * sum_list ((λ i, i + 1) <$> seq 0 n) = n * (n + 1).
Proof.
  induction n as [|n IH]; [done|].
  rewrite seq_S, fmap_app, sum_list_with_app. simpl. lia.
Qed.

Lemma half_triangle (T c : nat) :
  2 * c = (T + 1) * (T + 1 + 1) → c = (T + 1) * (T + 2) / 2.
Proof.
  intros Hc. replace ((T + 1) * (T + 2)) with (c * 2) by lia.
  by rewrite Nat.div_mul.
Qed.

Lemma lattice_cells_length T :
  length (lattice_cells T) = (T + 1) * (T + 2) / 2.
Proof.
  apply half_triangle. unfold lattice_cells. apply triangle_length.
  intros i. by rewrite length_fmap, length_seq.
Qed.

Lemma populated_rates_row r0 u d (i m k : nat) :
  length (filter (λ v, is_nan v = false) (rates_final r0 u d i <$> seq k m))
  = Nat.min (k + m) (i + 1) - k.
Proof.
  revert k. induction m as [|m IH]; intros k; simpl; [lia|].
  destruct (decide (k ≤ i)) as [Hk|Hk].
  - rewrite filter_cons_True.
    + simpl. rewrite IH. lia.
    + unfold rates_final. by rewrite decide_True.
  - rewrite filter_cons_False.
    + rewrite IH. lia.
    + unfold rates_final. by rewrite decide_False.
Qed.

Lemma populated_rates r0 u d n :
  2 * populated (grid n (rates_final r0 u d)) = n * (n + 1).
Proof.
  rewrite <- triangle_sum. f_equal. unfold populated, grid.
  rewrite <- list_fmap_compose. f_equal. apply list_fmap_ext.
  intros k i Hi. apply lookup_seq in Hi as [-> Hk]. simpl.
  rewrite populated_rates_row. lia.
Qed.

(** C4.  For every horizon [T], [build_rates_tree] returns a lattice in
    which exactly the cells [(i, j)] with [0 <= j <= i <= T] hold a number,
    [(T+1)(T+2)/2] of them, and the run computes each of these cells
    through [get_rate_at_node] once and no other. *)
Theorem rate_lattice_cell_count (r0 u d : R) (T : nat) :
  ∃ tree,
    value (build_rates_tree r0 u d T) = Ok tree
    ∧ (∀ i j, (∃ x, cell tree i j = Some (Num x)) ↔ j ≤ i ∧ i ≤ T)
    ∧ populated tree = (T + 1) * (T + 2) / 2
    ∧ computed (steps (build_rates_tree r0 u d T)) = lattice_cells T
    ∧ NoDup (computed (steps (build_rates_tree r0 u d T)))
    ∧ length (computed (steps (build_rates_tree r0 u d T)))
      = (T + 1) * (T + 2) / 2.
Proof.
  assert (computed (steps (build_rates_tree r0 u d T)) = lattice_cells T)
    as Hcells.
  { rewrite build_rates_tree_steps. unfold lattice_cells.
    rewrite <- computed_rate_rows. done. }
  eexists. split; [apply build_rates_tree_value|].
  split; [|split; [|split; [done|split]]].
  - intros i j. split.
    + intros [x Hx]. destruct (decide (i < T + 1 ∧ j < T + 1)) as [[Hi Hj]|Hout].
      * rewrite cell_grid in Hx by done. unfold rates_final in Hx.
        case_decide; [lia|done].
      * rewrite cell_grid_None in Hx by lia. done.
    + intros [Hji HiT]. rewrite cell_grid by lia. unfold rates_final.
      rewrite decide_True by done. eauto.
  - apply half_triangle. apply populated_rates.
  - rewrite Hcells. apply lattice_cells_NoDup.
  - rewrite Hcells. apply lattice_cells_length.
Qed.

(** * Properties of the price lattice *)

(** C1.  For every horizon [T >= 1], [build_prices_tree] returns a lattice
    [P] whose terminal row holds [100] in every state [j <= T], and whose
    cells at [time <= T - 1], [state <= time] satisfy
    [P[time,state] = 0.5 * (P[time+1,state+1] + P[time+1,state])
                     * (1 / (1 + R[time,state]))],
    [R] being the lattice [build_rates_tree] returns for the same
    parameters. *)
Theorem price_lattice_backward_induction (r0 u d : R) (T : nat) :
  1 ≤ T →
  ∃ P Rt,
    value (build_prices_tree r0 u d T) = Ok P
    ∧ value (build_rates_tree r0 u d T) = Ok Rt
    ∧ (∀ j, j ≤ T → cell P T j = Some (Num 100))
    ∧ (∀ time state, time ≤ T - 1 → state ≤ time →
         ∃ p up down r,
           cell P time state = Some p
           ∧ cell P (time + 1) (state + 1) = Some up
           ∧ cell P (time + 1) state = Some down
           ∧ cell Rt time state = Some r
           ∧ p = fmul (fmul (Num 0.5) (fadd up down))
                      (fdiv (Num 1) (fadd (Num 1) r))).
Proof.
  intros HT. eexists _, _.
  split; [apply build_prices_tree_value|].
  split; [apply build_rates_tree_value|]. split.
  - intros j Hj. rewrite cell_grid by lia. unfold prices_final.
    rewrite decide_True by done. by rewrite price_terminal.
  - intros time state Htime Hstate. eexists _, _, _, _.
    rewrite !cell_grid by lia. repeat (split; [reflexivity|]).
    unfold prices_final, rates_final. rewrite !decide_True by lia.
    rewrite price_backward by lia. unfold price_step.
    by rewrite fmul_half_fadd.
Qed.

Lemma price_lattice_backward_induction_witness :
  1 ≤ 4
  ∧ ∃ P Rt,
    value (build_prices_tree 0.06 1.25 0.9 4) = Ok P
    ∧ value (build_rates_tree 0.06 1.25 0.9 4) = Ok Rt
    ∧ (∀ j, j ≤ 4 → cell P 4 j = Some (Num 100))
    ∧ (∀ time state, time ≤ 4 - 1 → state ≤ time →
         ∃ p up down r,
           cell P time state = Some p
           ∧ cell P (time + 1) (state + 1) = Some up
           ∧ cell P (time + 1) state = Some down
           ∧ cell Rt time state = Some r
           ∧ p = fmul (fmul (Num 0.5) (fadd up down))
                      (fdiv (Num 1) (fadd (Num 1) r))).
Proof.
  split; [lia|].
  apply (price_lattice_backward_induction 0.06 1.25 0.9 4). lia.
Defined.

Lemma rate_rows_steps_well_placed T :
  Forall (well_placed T) (rate_rows_steps (T + 1)).
Proof.
  unfold rate_rows_steps, rate_row_steps.
  apply Forall_bind, Forall_seq. intros i Hi.
  apply Forall_bind, Forall_seq. intros j Hj.
  repeat constructor; simpl; lia.
Qed.

Lemma price_rows_steps_well_placed T :
  Forall (well_placed T) (price_rows_steps T 0).
Proof.
  unfold price_rows_steps, price_row_steps.
  apply Forall_bind, Forall_rev, Forall_seq. intros i Hi.
  apply Forall_bind, Forall_rev, Forall_seq. intros j Hj.
  repeat constructor; simpl; lia.
Qed.

Lemma build_prices_tree_well_placed r0 u d T :
  Forall (well_placed T) (steps (build_prices_tree r0 u d T)).
Proof.
  rewrite build_prices_tree_steps.
  apply Forall_cons. split; [simpl; lia|].
  apply Forall_cons. split; [simpl; lia|].
  apply Forall_app. split.
  - apply rate_rows_steps_well_placed.
  - apply price_rows_steps_well_placed.
Qed.

Lemma square_grid n f : square n (grid n f).
Proof.
  unfold square, grid. split.
  - by rewrite length_fmap, length_seq.
  - apply Forall_fmap, Forall_forall. intros i _. simpl.
    by rewrite length_fmap, length_seq.
Qed.

(** C8.  Both builders return square [(T+1) x (T+1)] arrays in which
    every cell with [j > i] holds NaN, and every load (and store) of the
    run of [build_prices_tree] is at a cell with [j <= i <= T]: the
    backward pass never reads an invalid cell. *)
Theorem invalid_cells_hold_nan (r0 u d : R) (T : nat) :
  ∃ rates prices,
    value (build_rates_tree r0 u d T) = Ok rates
    ∧ value (build_prices_tree r0 u d T) = Ok prices
    ∧ square (T + 1) rates ∧ square (T + 1) prices
    ∧ (∀ i j, i ≤ T → j ≤ T → i < j →
         cell rates i j = Some NaN ∧ cell prices i j = Some NaN)
    ∧ (∀ a i j, Load a i j ∈ steps (build_prices_tree r0 u d T) →
         j ≤ i ∧ i ≤ T)
    ∧ (∀ a i j, Store a i j ∈ steps (build_prices_tree r0 u d T) →
         j ≤ i ∧ i ≤ T).
Proof.
  pose proof (build_prices_tree_well_placed r0 u d T) as Hsteps.
  rewrite Forall_forall in Hsteps.
  eexists _, _.
  split; [apply build_rates_tree_value|].
  split; [apply build_prices_tree_value|].
  split; [apply square_grid|]. split; [apply square_grid|].
  split; [|split].
  - intros i j Hi Hj Hij. rewrite !cell_grid by lia.
    unfold rates_final, prices_final. by rewrite !decide_False by lia.
  - intros a i j Hin. apply (Hsteps _ Hin).
  - intros a i j Hin. apply (Hsteps _ Hin).
Qed.

Lemma invalid_cells_hold_nan_witness :
  ∃ rates prices,
    value (build_rates_tree 0.06 1.25 0.9 4) = Ok rates
    ∧ value (build_prices_tree 0.06 1.25 0.9 4) = Ok prices
    ∧ cell rates 2 3 = Some NaN ∧ cell prices 2 3 = Some NaN.
Proof.
  destruct (invalid_cells_hold_nan 0.06 1.25 0.9 4)
    as (rates & prices & Hr & Hp & _ & _ & Hnan & _).
  exists rates, prices. split; [done|]. split; [done|].
  apply Hnan; lia.
Defined.





Lemma discount_bounds (r : R) :
  (0 < r)%R → (0 < 1 / (1 + r) < 1)%R.
Proof.
  intros Hr. assert (0 < 1 + r)%R as Hpos by lra.
  split.
  - apply Rdiv_lt_0_compat; lra.
  - apply (Rmult_lt_reg_r (1 + r)); [done|]. field_simplify; lra.
Qed.




(** * Properties of the spot rate *)

Lemma py_int_truediv_pos (T : nat) :
  1 ≤ T → py_int_truediv 1 (Z.of_nat T) = Ok (1 / INR T)%R.
Proof.
  intros HT. unfold py_int_truediv.
  destruct (Z.eqb_spec (Z.of_nat T) 0) as [H0|_]; [lia|].
  by rewrite <- INR_IZR_INZ.
Qed.

Lemma get_spot_rate_value r0 u d T :
  1 ≤ T →
  value (get_spot_rate r0 u d T)
  = Ok (fsub (fpow (fdiv (Num 100) (prices_final r0 u d T 0 0)) (1 / INR T))
             (Num 1)).
Proof.
  intros HT. unfold value.
  by rewrite get_spot_rate_run, py_int_truediv_pos.
Qed.

Lemma inv_horizon_pos (T : nat) : 1 ≤ T → (0 < 1 / INR T)%R.
Proof.
  intros HT. apply Rdiv_lt_0_compat; [lra|].
  apply lt_0_INR. lia.
Qed.

(** The spot rate of a positive bond price, over the reals. *)
Lemma spot_rate_of_positive_price (p : R) (T : nat) :
  1 ≤ T → (0 < p)%R →
  fsub (fpow (fdiv (Num 100) (Num p)) (1 / INR T)) (Num 1)
  = Num (Rpower (100 / p) (1 / INR T) - 1).
Proof.
  intros HT Hp. pose proof (inv_horizon_pos T HT) as Hexp.
  assert (0 < 100 / p)%R as Hbase by (apply Rdiv_lt_0_compat; lra).
  unfold fdiv. destruct (Req_dec_T p 0) as [H0|_]; [lra|].
  unfold fpow. destruct (Req_dec_T (1 / INR T) 0) as [H0|_]; [lra|].
  destruct (Rlt_dec 0 (100 / p)) as [_|Hn]; [|done].
  unfold fsub. simpl. done.
Qed.

(** Compounding the spot rate over [T] periods reprices the bond:
    [p * (1 + spot)^T = 100], the relation of the docstring. *)
Lemma spot_rate_reprices_bond (p : R) (T : nat) :
  1 ≤ T → (0 < p)%R →
  (p * (1 + (Rpower (100 / p) (1 / INR T) - 1)) ^ T = 100)%R.
Proof.
  intros HT Hp.
  assert (0 < 100 / p)%R as Hbase by (apply Rdiv_lt_0_compat; lra).
  assert (0 < INR T)%R as HTpos by (apply lt_0_INR; lia).
  replace (1 + (Rpower (100 / p) (1 / INR T) - 1))%R
    with (Rpower (100 / p) (1 / INR T)) by lra.
  rewrite <- Rpower_pow by apply exp_pos.
  rewrite Rpower_mult.
  replace (1 / INR T * INR T)%R with 1%R by (field; lra).
  rewrite Rpower_1 by done. field. lra.
Qed.

(** C3.  For every horizon [T >= 1], [get_spot_rate] returns
    [(100 / P0)^(1/T) - 1], [P0] being the root cell of the lattice
    [build_prices_tree] returns for the same parameters; the expression is
    the one on doubles, and for a positive [P0] it is the real power. *)
Theorem spot_rate_formula (r0 u d : R) (T : nat) :
  1 ≤ T →
  ∃ P P0,
    value (build_prices_tree r0 u d T) = Ok P
    ∧ cell P 0 0 = Some P0
    ∧ value (get_spot_rate r0 u d T)
      = Ok (fsub (fpow (fdiv (Num 100) P0) (1 / INR T)) (Num 1))
    ∧ ∀ p, P0 = Num p → (0 < p)%R →
        value (get_spot_rate r0 u d T)
        = Ok (Num (Rpower (100 / p) (1 / INR T) - 1)).
Proof.
  intros HT. eexists _, _.
  split; [apply build_prices_tree_value|].
  split; [by rewrite cell_grid by lia|].
  split; [by apply get_spot_rate_value|].
  intros p HP0 Hp. rewrite get_spot_rate_value, HP0 by done.
  by rewrite spot_rate_of_positive_price.
Qed.

Lemma spot_rate_formula_witness :
  1 ≤ 4
  ∧ ∃ P P0,
    value (build_prices_tree 0.06 1.25 0.9 4) = Ok P
    ∧ cell P 0 0 = Some P0
    ∧ value (get_spot_rate 0.06 1.25 0.9 4)
      = Ok (fsub (fpow (fdiv (Num 100) P0) (1 / INR 4)) (Num 1)).
Proof.
  assert (1 ≤ 4) as H14 by lia. split; [done|].
  destruct (spot_rate_formula 0.06 1.25 0.9 4 H14)
    as (P & P0 & HP & HP0 & Hspot & _).
  by exists P, P0.
Defined.




(** * The docstring examples

    The values quoted in the docstrings of the program, recomputed on the
    embedding. *)

(** [build_rates_tree(.06, 1.25, .9, 5)]: [tree[0,0]], [tree[1,1]] and
    [tree[4,3]]. *)
Example rates_tree_doctests :
  ∃ tree,
    value (build_rates_tree 0.06 1.25 0.9 5) = Ok tree
    ∧ cell tree 0 0 = Some (Num 0.06)
    ∧ cell tree 1 1 = Some (Num 0.075)
    ∧ ∃ r, cell tree 4 3 = Some (Num r) ∧ (Rabs (r - 0.105469) < 0.00001)%R.
Proof.
  eexists. split; [apply build_rates_tree_value|].
  rewrite !cell_grid by lia. unfold rates_final.
  rewrite !decide_True by lia. unfold rate. simpl.
  split; [f_equal; f_equal; lra|]. split; [f_equal; f_equal; lra|].
  eexists. split; [reflexivity|]. apply Rabs_def1; lra.
Qed.

(** [build_prices_tree(.06, 1.25, .9, 4)[0,0]] is [77.21774]. *)
Example prices_tree_doctest :
  ∃ p,
    prices_final 0.06 1.25 0.9 4 0 0 = Num p
    ∧ (Rabs (p - 77.21774) < 0.001)%R.
Proof.
  unfold prices_final. rewrite decide_True by lia.
  unfold price. simpl. unfold rate. simpl.
  repeat (rewrite price_step_Num; [|lra]).
  eexists. split; [reflexivity|]. apply Rabs_def1; lra.
Qed.

Lemma fourth_root_bounds (x q : R) :
  (0 < q)%R → (q ^ 4 = x)%R → (1.29451 < x < 1.29547)%R →
  (Rabs (q - 1 - 0.06676) < 0.0001)%R.
Proof.
  intros Hq Hq4 Hx. apply Rabs_def1.
  - destruct (Rlt_le_dec q 1.06686) as [Hlt|Hge]; [lra|].
    assert (1.06686 ^ 4 <= q ^ 4)%R as Hpow by (apply pow_incr; lra).
    simpl in Hpow, Hq4. lra.
  - destruct (Rlt_le_dec 1.06666 q) as [Hlt|Hge]; [lra|].
    assert (q ^ 4 <= 1.06666 ^ 4)%R as Hpow by (apply pow_incr; lra).
    simpl in Hpow, Hq4. lra.
Qed.

(** [get_spot_rate(.06, 1.25, .9, 4)] is [.06676]. *)
Example spot_rate_doctest :
  ∃ s,
    value (get_spot_rate 0.06 1.25 0.9 4) = Ok (Num s)
    ∧ (Rabs (s - 0.06676) < 0.0001)%R.
Proof.
  destruct prices_tree_doctest as (p & Hp & Hbound).
  apply Rabs_def2 in Hbound.
  rewrite get_spot_rate_value, Hp by lia.
  rewrite spot_rate_of_positive_price by (lia || lra).
  eexists. split; [reflexivity|].
  pose proof (spot_rate_reprices_bond p 4 ltac:(lia) ltac:(lra)) as Hre.
  set (q := Rpower (100 / p) (1 / INR 4)) in *.
  replace (1 + (q - 1))%R with q in Hre by lra.
  apply (fourth_root_bounds (q ^ 4)); [apply exp_pos|done|].
  split; nra.
Qed.

(** * Further properties of the node rate *)







(** * Further properties of the lattices *)

Lemma stored_app a tr1 tr2 :
  stored a (tr1 ++ tr2) = stored a tr1 ++ stored a tr2.
Proof. unfold stored. apply bind_app. Qed.

Lemma stored_rate_row i k :
  stored Rates (rate_row_steps i k) = (λ j, (i, j)) <$> seq 0 k.
Proof.
  unfold rate_row_steps. induction k as [|k IH]; [done|].
  rewrite seq_S, bind_app, fmap_app, stored_app, IH. done.
Qed.

Lemma stored_rate_rows t :
  stored Rates (rate_rows_steps t)
  = seq 0 t ≫= (λ i, (λ j, (i, j)) <$> seq 0 (i + 1)).
Proof.
  unfold rate_rows_steps. induction t as [|t IH]; [done|].
  rewrite seq_S, !bind_app, stored_app, IH. f_equal. simpl.
  rewrite !app_nil_r. apply stored_rate_row.
Qed.

Lemma stored_prices_rate_row i k : stored Prices (rate_row_steps i k) = [].
Proof.
  unfold rate_row_steps. induction k as [|k IH]; [done|].
  by rewrite seq_S, bind_app, stored_app, IH.
Qed.

Lemma stored_prices_rate_rows t : stored Prices (rate_rows_steps t) = [].
Proof.
  unfold rate_rows_steps. induction t as [|t IH]; [done|].
  rewrite seq_S, bind_app, stored_app, IH. simpl. rewrite app_nil_r.
  apply stored_prices_rate_row.
Qed.

Lemma stored_price_row t k :
  k ≤ t + 1 →
  stored Prices (price_row_steps t k)
  = (λ j, (t, j)) <$> rev (seq k (t + 1 - k)).
Proof.
  intros Hk. remember (t + 1 - k) as m eqn:Hm.
  revert k Hk Hm. induction m as [|m IH]; intros k Hk Hm.
  - unfold price_row_steps. by rewrite <- Hm.
  - rewrite price_row_steps_step by lia. rewrite stored_app.
    rewrite (IH (S k)) by lia. simpl. by rewrite fmap_app.
Qed.

Lemma stored_price_rows T t :
  t ≤ T →
  stored Prices (price_rows_steps T t)
  = rev (seq t (T - t)) ≫= (λ i, (λ j, (i, j)) <$> rev (seq 0 (i + 1))).
Proof.
  intros Ht. remember (T - t) as m eqn:Hm.
  revert t Ht Hm. induction m as [|m IH]; intros t Ht Hm.
  - unfold price_rows_steps. by rewrite <- Hm.
  - rewrite price_rows_steps_step by lia. rewrite stored_app.
    rewrite (IH (S t)) by lia. simpl. rewrite bind_app. f_equal.
    rewrite stored_price_row by lia. simpl.
    rewrite app_nil_r. by replace (t + 1 - 0) with (t + 1) by lia.
Qed.

Lemma rev_reverse {A} (l : list A) : rev l = reverse l.
Proof. unfold reverse. by rewrite rev_alt. Qed.

Lemma backward_cells_NoDup T : NoDup (backward_cells T).
Proof.
  unfold backward_cells. rewrite rev_reverse. apply NoDup_bind.
  - intros i1 i2 [i j] _ _ H1 H2.
    apply list_elem_of_fmap in H1 as (j1 & [= -> ->] & _).
    apply list_elem_of_fmap in H2 as (j2 & [= -> ->] & _). done.
  - intros i _. rewrite rev_reverse.
    apply NoDup_fmap; [|rewrite reverse_Permutation; apply NoDup_seq].
    intros j1 j2 [= ->]. done.
  - rewrite reverse_Permutation. apply NoDup_seq.
Qed.

Lemma backward_cells_elem T i j :
  (i, j) ∈ backward_cells T ↔ j ≤ i ∧ i < T.
Proof.
  unfold backward_cells. rewrite list_elem_of_bind. split.
  - intros (i' & Hin & Hi').
    rewrite rev_reverse in Hin, Hi'. apply elem_of_reverse, elem_of_seq in Hi'.
    apply list_elem_of_fmap in Hin as (j' & [= -> ->] & Hj').
    apply elem_of_reverse, elem_of_seq in Hj'. lia.
  - intros [Hji HiT]. exists i. rewrite !rev_reverse. split.
    + apply list_elem_of_fmap. exists j. split; [done|].
      apply elem_of_reverse, elem_of_seq. lia.
    + apply elem_of_reverse, elem_of_seq. lia.
Qed.

Lemma backward_cells_length T : 2 * length (backward_cells T) = T * (T + 1).
Proof.
  unfold backward_cells. induction T as [|T IH]; [done|].
  rewrite seq_S, rev_app_distr. cbn [rev app].
  rewrite bind_cons, length_app, length_fmap, length_rev, length_seq. lia.
Qed.

(** X4.  At horizon [0] the loops of the backward pass are empty: the
    rate lattice is the single cell [r0] and the price lattice the single
    cell [100], whatever the parameters. *)
Theorem zero_horizon_lattices (r0 u d : R) :
  value (build_rates_tree r0 u d 0) = Ok [[Num r0]]
  ∧ value (build_prices_tree r0 u d 0) = Ok [[Num 100]].
Proof.
  rewrite build_rates_tree_value, build_prices_tree_value.
  unfold grid. simpl. unfold rates_final, prices_final.
  rewrite !decide_True by lia. by rewrite rate_root, price_terminal.
Qed.

(** X5.  [build_rates_tree] stores into the rate array only, at valid
    cells only: the root once before the loops (from [initial_rate]) and
    then every valid cell, the root included, exactly once in row order.
    So the root is stored twice and every other valid cell once. *)
Theorem rate_lattice_stores (r0 u d : R) (T : nat) :
  stored Rates (steps (build_rates_tree r0 u d T)) = (0, 0) :: lattice_cells T
  ∧ NoDup (lattice_cells T)
  ∧ (0, 0) ∈ lattice_cells T
  ∧ stored Prices (steps (build_rates_tree r0 u d T)) = [].
Proof.
  rewrite build_rates_tree_steps. split; [|split; [|split]].
  - change (Store Rates 0 0 :: rate_rows_steps (T + 1))
      with ([Store Rates 0 0] ++ rate_rows_steps (T + 1)).
    rewrite stored_app, stored_rate_rows. done.
  - apply lattice_cells_NoDup.
  - unfold lattice_cells. apply list_elem_of_bind. exists 0. split.
    + apply list_elem_of_fmap. exists 0. split; [done|].
      apply elem_of_seq. lia.
    + apply elem_of_seq. lia.
  - change (Store Rates 0 0 :: rate_rows_steps (T + 1))
      with ([Store Rates 0 0] ++ rate_rows_steps (T + 1)).
    rewrite stored_app, stored_prices_rate_rows. done.
Qed.

(** X6.  The backward pass of [build_prices_tree] stores every valid cell
    of the rows before the horizon exactly once, latest row first, and no
    other single cell: [T(T+1)/2] stores, none into the terminal row,
    which only the row assignment sets. *)
Theorem price_lattice_stores (r0 u d : R) (T : nat) :
  stored Prices (steps (build_prices_tree r0 u d T)) = backward_cells T
  ∧ NoDup (backward_cells T)
  ∧ (∀ i j, (i, j) ∈ backward_cells T ↔ j ≤ i ∧ i < T)
  ∧ length (backward_cells T) = T * (T + 1) / 2.
Proof.
  split; [|split; [|split]].
  - rewrite build_prices_tree_steps.
    change (StoreRow Prices T :: Store Rates 0 0
            :: rate_rows_steps (T + 1) ++ price_rows_steps T 0)
      with ([StoreRow Prices T; Store Rates 0 0]
            ++ rate_rows_steps (T + 1) ++ price_rows_steps T 0).
    rewrite !stored_app, stored_prices_rate_rows.
    rewrite stored_price_rows by lia. simpl.
    unfold backward_cells. by rewrite Nat.sub_0_r.
  - apply backward_cells_NoDup.
  - apply backward_cells_elem.
  - pose proof (backward_cells_length T) as Hlen.
    replace (T * (T + 1)) with (length (backward_cells T) * 2) by lia.
    by rewrite Nat.div_mul.
Qed.

(** * Further properties of the prices and the spot rate *)





Lemma fadd_comm (a b : float) : fadd a b = fadd b a.
Proof. destruct a, b; simpl; try done. f_equal. lra. Qed.

Lemma price_step_comm (a b r : float) : price_step a b r = price_step b a r.
Proof. unfold price_step. by rewrite fadd_comm. Qed.

Lemma rate_mirror r0 u d i j :
  j ≤ i → rate r0 u d i j = rate r0 d u i (i - j).
Proof.
  intros Hji. unfold rate. replace (i - (i - j)) with j by lia. ring.
Qed.

Lemma price_from_mirror r0 u d k i j :
  j ≤ i → price_from r0 u d k i j = price_from r0 d u k i (i - j).
Proof.
  revert i j. induction k as [|k IH]; intros i j Hji; [done|].
  simpl. rewrite (IH (i + 1) (j + 1)), (IH (i + 1) j) by lia.
  rewrite (rate_mirror r0 u d i j) by done.
  replace (i + 1 - (j + 1)) with (i - j) by lia.
  replace (i + 1 - j) with (i - j + 1) by lia.
  apply price_step_comm.
Qed.

(** X9.  Exchanging the up-move and the down-move mirrors the price
    lattice, cell [(i, j)] going to [(i, i - j)], since both moves weigh
    [0.5]; the root is its own mirror image, so [get_spot_rate] gives the
    same result for [(u, d)] and [(d, u)]. *)
Theorem up_down_symmetry (r0 u d : R) (T : nat) :
  (∃ P Q,
     value (build_prices_tree r0 u d T) = Ok P
     ∧ value (build_prices_tree r0 d u T) = Ok Q
     ∧ ∀ i j, j ≤ i → i ≤ T → cell P i j = cell Q i (i - j))
  ∧ value (get_spot_rate r0 u d T) = value (get_spot_rate r0 d u T).
Proof.
  assert (∀ i j, j ≤ i →
            prices_final r0 u d T i j = prices_final r0 d u T i (i - j))
    as Hmirror.
  { intros i j Hji. unfold prices_final, price.
    rewrite !decide_True by lia. by apply price_from_mirror. }
  split.
  - eexists _, _. split; [apply build_prices_tree_value|].
    split; [apply build_prices_tree_value|].
    intros i j Hji HiT. rewrite !cell_grid by lia. f_equal. by apply Hmirror.
  - unfold value. rewrite !get_spot_rate_run.
    by rewrite (Hmirror 0 0) by lia.
Qed.

Lemma up_down_symmetry_witness :
  ∃ P Q,
    value (build_prices_tree 0.06 1.25 0.9 4) = Ok P
    ∧ value (build_prices_tree 0.06 0.9 1.25 4) = Ok Q
    ∧ cell P 3 1 = cell Q 3 (3 - 1).
Proof.
  destruct (up_down_symmetry 0.06 1.25 0.9 4) as [(P & Q & HP & HQ & Hcells) _].
  exists P, Q. split; [done|]. split; [done|]. apply Hcells; lia.
Defined.

Lemma flat_price_from r0 k i j :
  (1 + r0 ≠ 0)%R →
  price_from r0 1 1 k i j = Num (100 / (1 + r0) ^ k).
Proof.
  intros Hr0. revert i j. induction k as [|k IH]; intros i j.
  - simpl. f_equal. lra.
  - assert ((1 + r0) ^ k ≠ 0)%R as Hpow by (by apply pow_nonzero).
    assert (rate r0 1 1 i j = r0) as Hrate.
    { unfold rate. rewrite !pow1. lra. }
    simpl. rewrite !IH, Hrate, price_step_Num by done. f_equal.
    replace (0.5 * (100 / (1 + r0) ^ k) + 0.5 * (100 / (1 + r0) ^ k))%R
      with (100 / (1 + r0) ^ k)%R by lra.
    field. done.
Qed.




(** X11.  With a zero initial rate every rate of the lattice is zero,
    whatever the moves: every valid cell of the price lattice holds
    [100], and for [T >= 1] the spot rate is [0]. *)
Theorem zero_rate_lattice (u d : R) (T : nat) :
  (∃ P,
     value (build_prices_tree 0 u d T) = Ok P
     ∧ ∀ i j, j ≤ i → i ≤ T → cell P i j = Some (Num 100))
  ∧ (1 ≤ T → value (get_spot_rate 0 u d T) = Ok (Num 0)).
Proof.
  assert (∀ k i j, price_from 0 u d k i j = Num 100) as Hprice.
  { induction k as [|k IH]; intros i j; [done|].
    simpl. rewrite !IH.
    assert (rate 0 u d i j = 0%R) as -> by (unfold rate; lra).
    rewrite price_step_Num by lra. f_equal. lra. }
  split.
  - eexists. split; [apply build_prices_tree_value|].
    intros i j Hji HiT. rewrite cell_grid by lia.
    unfold prices_final, price. rewrite decide_True by done.
    by rewrite Hprice.
  - intros HT. rewrite get_spot_rate_value by done.
    unfold prices_final, price. rewrite decide_True by lia.
    rewrite Hprice, spot_rate_of_positive_price by (done || lra).
    replace (100 / 100)%R with 1%R by lra.
    unfold Rpower. rewrite ln_1, Rmult_0_r, exp_0. do 2 f_equal. lra.
Qed.

Lemma zero_rate_lattice_witness :
  1 ≤ 4 ∧ value (get_spot_rate 0 1.25 0.9 4) = Ok (Num 0).
Proof.
  split; [lia|].
  destruct (zero_rate_lattice 1.25 0.9 4) as [_ Hspot]. apply Hspot. lia.
Defined.

Lemma discount_decreasing (r r' : R) :
  (0 < r < r')%R → (1 / (1 + r') < 1 / (1 + r))%R.
Proof.
  intros Hr. unfold Rdiv. rewrite !Rmult_1_l.
  apply Rinv_lt_contravar; [|lra].
  apply Rmult_lt_0_compat; lra.
Qed.


(** A discounted average is monotone in the prices and antitone in the
    rate. *)
Lemma price_step_le (a b a' b' r r' : R) :
  (0 < a' <= a)%R → (0 < b' <= b)%R → (0 < r <= r')%R →
  ((0.5 * a' + 0.5 * b') * (1 / (1 + r'))
   <= (0.5 * a + 0.5 * b) * (1 / (1 + r)))%R.
Proof.
  intros Ha Hb Hr.
  pose proof (discount_bounds r ltac:(lra)) as Hq.
  pose proof (discount_bounds r' ltac:(lra)) as Hq'.
  assert (1 / (1 + r') <= 1 / (1 + r))%R as Hle.
  { destruct (Req_dec_T r r') as [->|Hne]; [lra|].
    apply Rlt_le, discount_decreasing. lra. }
  nra.
Qed.













Lemma inv_horizon_not_integer (T : nat) :
  2 ≤ T → is_integer (1 / INR T) = false.
Proof.
  intros HT. assert (2 <= INR T)%R as HINR.
  { change 2%R with (INR 2). apply le_INR. lia. }
  assert (0 < 1 / INR T < 1)%R as Hfrac.
  { split; [apply Rdiv_lt_0_compat; lra|].
    apply (Rmult_lt_reg_r (INR T)); [lra|]. field_simplify; lra. }
  unfold is_integer.
  rewrite <- (Int_part_spec (1 / INR T) 0) by lra.
  destruct (Req_dec_T (1 / INR T) 0) as [Hz|_]; [lra|done].
Qed.

(** X15.  A negative root price is not rejected: for [T >= 2] the base
    [100 / P0] is negative and the exponent [1 / T] is not an integer, so
    [get_spot_rate] returns NaN and raises nothing. *)
Theorem negative_root_price_gives_nan (r0 u d : R) (T : nat)
    (P : array) (p : R) :
  2 ≤ T →
  value (build_prices_tree r0 u d T) = Ok P →
  cell P 0 0 = Some (Num p) → (p < 0)%R →
  value (get_spot_rate r0 u d T) = Ok NaN.
Proof.
  intros HT HP Hcell Hp. rewrite build_prices_tree_value in HP.
  injection HP as <-. rewrite cell_grid in Hcell by lia.
  injection Hcell as Hroot.
  rewrite get_spot_rate_value, Hroot by lia.
  assert (100 / p < 0)%R as Hbase.
  { pose proof (Rinv_lt_0_compat p Hp) as Hinv. unfold Rdiv. nra. }
  pose proof (inv_horizon_pos T ltac:(lia)) as Hexp.
  unfold fdiv. destruct (Req_dec_T p 0) as [Hz|_]; [lra|].
  unfold fpow. destruct (Req_dec_T (1 / INR T) 0) as [Hz|_]; [lra|].
  destruct (Rlt_dec 0 (100 / p)) as [Hpos|_]; [lra|].
  destruct (Req_dec_T (100 / p) 0) as [Hz|_]; [lra|].
  by rewrite inv_horizon_not_integer.
Qed.

Lemma negative_root_price_gives_nan_witness :
  2 ≤ 3
  ∧ value (build_prices_tree (-3) 1 1 3)
    = Ok (grid (3 + 1) (prices_final (-3) 1 1 3))
  ∧ cell (grid (3 + 1) (prices_final (-3) 1 1 3)) 0 0
    = Some (Num (100 / (1 + -3) ^ 3))
  ∧ (100 / (1 + -3) ^ 3 < 0)%R
  ∧ value (get_spot_rate (-3) 1 1 3) = Ok NaN.
Proof.
  assert (2 ≤ 3) as HT by lia.
  pose proof (build_prices_tree_value (-3) 1 1 3) as HP.
  assert (cell (grid (3 + 1) (prices_final (-3) 1 1 3)) 0 0
          = Some (Num (100 / (1 + -3) ^ 3))) as Hcell.
  { rewrite cell_grid by lia. unfold prices_final, price.
    rewrite decide_True by lia. rewrite flat_price_from by lra. done. }
  assert (100 / (1 + -3) ^ 3 < 0)%R as Hneg by (simpl; lra).
  split; [done|]. split; [done|]. split; [done|]. split; [done|].
  apply (negative_root_price_gives_nan (-3) 1 1 3 _ _ HT HP Hcell Hneg).
Defined.





